(** * Spheroids: the pybind11 / Armadillo array bridge of [converter.hpp]

    A shallow embedding of [src/spheroids/cpp/converter.hpp]: the four buffer
    converters between NumPy arrays ([py::array_t<double>]) and Armadillo
    values ([arma::vec], [arma::mat]), and the Moebius map [Moebius_S].

    - doubles are Rocq's primitive binary64 floats;
    - NumPy buffers live in a heap, a finite map from addresses to buffers, so
      that "allocates a new array" is a statement about addresses;
    - Armadillo matrices are values in column-major order;
    - C++ exceptions are the [Throw] results of a small error monad. *)

From Stdlib Require Import Floats ZArith Lia List String Bool.
From stdpp Require Import base option list gmap.

Local Open Scope float_scope.
Local Open Scope nat_scope.

(** * The embedding *)

(** ** Exceptions *)

(** The two standard exception classes that can leave this file:
    [std::runtime_error], thrown by [pyarray_to_arma_vec], and
    [std::logic_error], thrown by Armadillo's size-conformance checks (the
    library's default configuration).  For the latter [what] is the fixed
    part of the message; Armadillo appends the sizes it expected and got. *)
Inductive exception : Type :=
| runtime_error (what : string)
| logic_error (what : string).

Inductive result (A : Type) : Type :=
| Ok (a : A)
| Throw (e : exception).
Arguments Ok {A} a.
Arguments Throw {A} e.

#[global] Instance result_bind : MBind result := fun A B f m =>
  match m with
  | Ok a => f a
  | Throw e => Throw e
  end.

(** ** NumPy side: [py::array_t<double>] and [py::buffer_info] *)

Module py.

Abbreviation loc := positive.
Abbreviation heap := (gmap loc (list float)).

(** A C-contiguous array of doubles: the address of its buffer and its
    shape, one entry per dimension.  The converters never look at strides.
    Extents are [ssize_t] in C++; a buffer that exists in memory has fewer
    than 2^61 doubles, so the products of extents formed below are exact and
    the extents are modelled as natural numbers. *)
Record array_t : Type := { data : loc; shape : list nat }.

Record buffer_info : Type :=
  { ptr : loc; ndim : nat; buf_shape : list nat }.

(** [arr.request()] *)
Definition request (arr : array_t) : buffer_info :=
  {| ptr := data arr; ndim := length (shape arr); buf_shape := shape arr |}.

(** [buf.shape[k]] *)
Definition shape_at (buf : buffer_info) (k : nat) : nat :=
  nth k (buf_shape buf) 0.

(** The doubles stored at an address.  A [py::array_t] argument refers to a
    live object, so its address is in the heap. *)
Definition deref (h : heap) (p : loc) : list float :=
  default [] (h !! p).

(** Number of elements of an array of the given shape. *)
Definition size_of (shp : list nat) : nat := foldr Nat.mul 1 shp.

(** [py::array_t<double> result(shape)]: a buffer at an address that was not
    in use.  Its initial contents are unspecified in C++; both callers
    overwrite all of it. *)
Definition array_new (shp : list nat) (h : heap) : array_t * heap :=
  let p := fresh (dom h) in
  ({| data := p; shape := shp |}, <[p := repeat 0%float (size_of shp)]> h).

(** [std::memcpy(dst, src, n * sizeof(double))] from an Armadillo memory
    block into a NumPy buffer: the first [n] doubles are replaced. *)
Definition memcpy (dst : loc) (src : list float) (n : nat) (h : heap) : heap :=
  alter (fun old => take n src ++ drop n old) dst h.

(** What Python reads: element [k] of a 1-D array, and element [(i, j)] of a
    row-major 2-D array. *)
Definition item1 (h : heap) (arr : array_t) (k : nat) : float :=
  nth k (deref h (data arr)) 0%float.

Definition item2 (h : heap) (arr : array_t) (i j : nat) : float :=
  nth (i * nth 1 (shape arr) 0 + j) (deref h (data arr)) 0%float.

(** The array is live in [h] and its buffer has as many doubles as its shape
    says. *)
Definition valid (h : heap) (arr : array_t) : Prop :=
  exists buf, h !! data arr = Some buf /\ length buf = size_of (shape arr).

End py.

(** ** Armadillo side: dense column-major matrices *)

Module arma.

(** [arma::mat]; [arma::vec] is the case [n_cols = 1]. *)
Record mat : Type := { n_rows : nat; n_cols : nat; mem : list float }.

Abbreviation vec := mat.

Definition n_elem (M : mat) : nat := n_rows M * n_cols M.

(** [M(i, j)]: column-major addressing. *)
Definition at_ (M : mat) (i j : nat) : float :=
  nth (i + j * n_rows M) (mem M) 0%float.

Definition wf (M : mat) : Prop := length (mem M) = n_elem M.

(** A column vector of length [n]. *)
Definition is_vec (v : vec) (n : nat) : Prop :=
  wf v /\ n_rows v = n /\ n_cols v = 1.

(** [arma::mat M(ptr, r, c, false, false)]: a matrix over auxiliary memory.
    Nothing writes to the buffer while the view is alive, so the view is
    represented by the [r * c] doubles it sees. *)
Definition mat_aux (buf : list float) (r c : nat) : mat :=
  {| n_rows := r; n_cols := c; mem := take (r * c) buf |}.

(** [arma::vec v(ptr, n, false, false)] *)
Definition vec_aux (buf : list float) (n : nat) : vec := mat_aux buf n 1.

(** The matrix of the given size with [f i j] at position [(i, j)], stored
    column by column. *)
Definition fill (r c : nat) (f : nat -> nat -> float) : mat :=
  {| n_rows := r; n_cols := c;
     mem := map (fun k => f (k mod r) (k / r)) (seq 0 (r * c)) |}.

(** [M.t()] *)
Definition t (M : mat) : mat :=
  fill (n_cols M) (n_rows M) (fun i j => at_ M j i).

Definition row (M : mat) (i : nat) : list float :=
  map (fun j => at_ M i j) (seq 0 (n_cols M)).

Definition col (M : mat) (j : nat) : list float :=
  map (fun i => at_ M i j) (seq 0 (n_rows M)).

End arma.

Import py arma.

(** ** The converters *)

(** Convert a Python array to an [arma::vec]. *)
Definition pyarray_to_arma_vec (h : heap) (arr : array_t) : result vec :=
  let buf := request arr in
  if ndim buf =? 1 then
    Ok (vec_aux (deref h (ptr buf)) (shape_at buf 0))
  else if ndim buf =? 2 then
    let length := shape_at buf 0 * shape_at buf 1 in
    Ok (vec_aux (deref h (ptr buf)) length)
  else
    Throw (runtime_error "Expected a 1D or 2D vector.").

(** Convert a Python array to an [arma::mat]: the data is read as a
    (d x n) column-major matrix, then transposed.  The rank is not checked;
    the function is meant for arrays of rank 2. *)
Definition pyarray_to_arma_mat (h : heap) (arr : array_t) : mat :=
  let buf := request arr in
  let M := mat_aux (deref h (ptr buf)) (shape_at buf 1) (shape_at buf 0) in
  t M.

(** Convert an [arma::vec] to a Python array. *)
Definition arma_vec_to_pyarray (v : vec) (h : heap) : array_t * heap :=
  let '(result, h) := array_new [n_elem v] h in
  let buf := request result in
  let h := memcpy (ptr buf) (mem v) (n_elem v) h in
  (result, h).

(** Convert an [arma::mat] to a Python array. *)
Definition arma_mat_to_pyarray (M : mat) (h : heap) : array_t * heap :=
  let '(result, h) := array_new [n_rows M; n_cols M] h in
  let buf := request result in
  let h := memcpy (ptr buf) (mem M) (n_elem M) h in
  (result, h).

(** ** The Armadillo operations used by [Moebius_S]

    Armadillo checks that the operands of an operation conform in size
    ([check_size] for [each_row()] and [each_col()], the multiplication size
    assertion for products) and reports a failure through
    [arma_stop_logic_error], which throws [std::logic_error].  The checks are
    on unless the library is compiled with them disabled; the header defines
    no such macro. *)

Module ops.

Local Open Scope float_scope.

(** [k * M] *)
Definition scalar_times (k : float) (M : mat) : mat :=
  {| n_rows := n_rows M; n_cols := n_cols M; mem := map (fun x => k * x) (mem M) |}.

(** [k + M] *)
Definition scalar_plus (k : float) (M : mat) : mat :=
  {| n_rows := n_rows M; n_cols := n_cols M; mem := map (fun x => k + x) (mem M) |}.

(** [M + k] *)
Definition plus_scalar (M : mat) (k : float) : mat :=
  {| n_rows := n_rows M; n_cols := n_cols M; mem := map (fun x => x + k) (mem M) |}.

(** Inner product, accumulated from index 0. *)
Definition dot (x y : list float) : float :=
  fold_left (fun acc p => acc + fst p * snd p) (combine x y) 0.

(** [alpha * A * B]: Armadillo evaluates a product that carries a scalar
    factor by one [gemm]/[gemv] call, which receives the scalar as [alpha]. *)
Definition times (alpha : float) (A B : mat) : result mat :=
  if (n_cols A =? n_rows B)%nat then
    Ok (fill (n_rows A) (n_cols B) (fun i j => alpha * dot (row A i) (col B j)))
  else
    Throw (logic_error "matrix multiplication: incompatible matrix dimensions").

(** [M.each_row() + r] *)
Definition each_row_plus (M r : mat) : result mat :=
  if ((n_rows r =? 1) && (n_cols r =? n_cols M))%nat then
    Ok (fill (n_rows M) (n_cols M) (fun i j => at_ M i j + at_ r 0 j))
  else
    Throw (logic_error "each_row(): incompatible size").

(** [M.each_col() / c] *)
Definition each_col_div (M c : mat) : result mat :=
  if ((n_rows c =? n_rows M) && (n_cols c =? 1))%nat then
    Ok (fill (n_rows M) (n_cols M) (fun i j => at_ M i j / at_ c i 0))
  else
    Throw (logic_error "each_col(): incompatible size").

End ops.

Import ops.

(** ** The Moebius map *)

Definition Moebius_S (X : mat) (mu : vec) (rho : float) : result mat :=
  (* arma::mat Y = (1-rho*rho)*(X.each_row() + rho*mu.t()); *)
  Y ← each_row_plus X (scalar_times rho (t mu));
  let Y := scalar_times (1 - rho * rho) Y in
  (* Y = Y.each_col()/(1+2*rho*X*mu+rho*rho); *)
  P ← times (2 * rho) X mu;
  Y ← each_col_div Y (plus_scalar (scalar_plus 1 P) (rho * rho));
  (* Y = Y.each_row() + rho*mu.t(); *)
  Y ← each_row_plus Y (scalar_times rho (t mu));
  Ok Y.

(** Element (i, j) of the result on conforming operands, in the order in which
    the three statements compute it. *)
Definition moebius_entry (X : mat) (mu : vec) (rho : float) (i j : nat) : float :=
  ((1 - rho * rho) * (at_ X i j + rho * nth j (mem mu) 0)
     / (1 + 2 * rho * dot (row X i) (mem mu) + rho * rho)
   + rho * nth j (mem mu) 0)%float.

(** ** The map as the specification writes it, row by row

    [y = rho*mu + (1 - rho^2) * (x + rho*mu) / (1 + 2*rho*(x . mu) + rho^2)] *)

Definition moebius_row (rho : float) (mu x : list float) : list float :=
  let denom := (1 + 2 * rho * dot x mu + rho * rho)%float in
  zip_with (fun xj mj => (rho * mj + (1 - rho * rho) * (xj + rho * mj) / denom)%float) x mu.

(** Row [i] of a row-major 2-D array, as Python reads it. *)
Definition array_row (h : heap) (arr : array_t) (i : nat) : list float :=
  map (fun j => item2 h arr i j) (seq 0 (nth 1 (shape arr) 0)).

(** Two doubles that denote the same number: identical, or both a zero
    (whose sign may differ). *)
Definition same_double (r x : float) : Prop :=
  r = x \/ (is_zero r = true /\ is_zero x = true).

(** ** Auxiliary notions for reasoning about binary64 *)

Module Binary64.

(** [m * 2^n] as a binary numeral. *)
Definition shl (m : positive) (n : nat) : positive := Nat.iter n xO m.

(** The double 1.0. *)
Definition SFone : spec_float := S754_finite false 4503599627370496 (-52).

Definition sf_finite (a : spec_float) : bool :=
  match a with
  | S754_zero _ | S754_finite _ _ _ => true
  | _ => false
  end.

(** [keeps a r]: [r] is the finite number [a], up to the sign of a zero. *)
Definition keeps (a r : spec_float) : Prop :=
  match a with
  | S754_finite _ _ _ => r = a
  | S754_zero _ => exists s, r = S754_zero s
  | _ => False
  end.

Definition fkeeps (x r : float) : Prop := keeps (Prim2SF x) (Prim2SF r).

End Binary64.

(** ** Sample data *)

(** The 2 x 3 matrix [[1,2,3],[4,5,6]] in Armadillo's column-major memory, and
    the same values as a row-major NumPy array at address 1. *)
Definition M23 : mat :=
  {| n_rows := 2; n_cols := 3; mem := [1; 4; 2; 5; 3; 6]%float |}.

Definition h23 : heap := {[ 1%positive := [1; 2; 3; 4; 5; 6]%float ]}.

Definition A23 : array_t := {| data := 1%positive; shape := [2; 3] |}.

(** A 1-D array of three doubles at address 5. *)
Definition h3 : heap := {[ 5%positive := [1.5; 2; 3]%float ]}.

Definition a3 : array_t := {| data := 5%positive; shape := [3] |}.

(** The 2 x 2 identity, a unit vector of length 2, a vector of length 3. *)
Definition X22 : mat :=
  {| n_rows := 2; n_cols := 2; mem := [1; 0; 0; 1]%float |}.

Definition mu2 : vec := {| n_rows := 2; n_cols := 1; mem := [1; 0]%float |}.

Definition mu3 : vec := {| n_rows := 3; n_cols := 1; mem := [1; 0; 0]%float |}.

(** A 1 x 1 matrix and a vector of length 1 holding the finite double 2^600,
    whose square exceeds the largest double. *)
Definition X_big : mat := {| n_rows := 1; n_cols := 1; mem := [0x1p600]%float |}.

Definition mu_big : vec := {| n_rows := 1; n_cols := 1; mem := [0x1p600]%float |}.

(** A column of three doubles as a 2-D array of shape (3, 1) at address 2. *)
Definition h31 : heap := {[ 2%positive := [7; 8; 9]%float ]}.

Definition A31 : array_t := {| data := 2%positive; shape := [3; 1] |}.

(** The arguments of a call from Python: the 2 x 2 identity at address 1 and
    the vector [1, 0] at address 2. *)
Definition h_call : heap :=
  <[ 2%positive := [1; 0]%float ]> {[ 1%positive := [1; 0; 0; 1]%float ]}.

Definition A_call : array_t := {| data := 1%positive; shape := [2; 2] |}.

Definition m_call : array_t := {| data := 2%positive; shape := [2] |}.

(** [[NaN,0],[0,1]] and a direction with a NaN entry. *)
Definition X_nan : mat :=
  {| n_rows := 2; n_cols := 2; mem := [nan; 0; 0; 1]%float |}.

Definition mu_nan : vec := {| n_rows := 2; n_cols := 1; mem := [1; nan]%float |}.

(** * Properties *)

(** ** Column-major addressing *)

Section addressing.

Lemma colmajor_mod (r i j : nat) : i < r -> (i + j * r) mod r = i.
Proof.
  intros Hi. rewrite Nat.Div0.mod_add. now apply Nat.mod_small.
Qed.

Lemma colmajor_div (r i j : nat) : i < r -> (i + j * r) / r = j.
Proof.
  intros Hi. rewrite Nat.div_add by lia. rewrite Nat.div_small by lia. lia.
Qed.

Lemma colmajor_bound (r c i j : nat) : i < r -> j < c -> i + j * r < r * c.
Proof. nia. Qed.

Lemma index_split (r c k : nat) : k < r * c -> k mod r < r /\ k / r < c.
Proof.
  intros Hk. assert (r <> 0) by lia. split.
  - now apply Nat.mod_upper_bound.
  - apply Nat.Div0.div_lt_upper_bound. lia.
Qed.

Lemma nth_map_seq (f : nat -> float) (n k : nat) :
  k < n -> nth k (map f (seq 0 n)) 0%float = f k.
Proof.
  intros Hk.
  rewrite nth_indep with (d' := f 0) by (rewrite length_map, length_seq; lia).
  rewrite map_nth, seq_nth by lia. reflexivity.
Qed.

Lemma nth_seq_id (l : list float) :
  map (fun i => nth i l 0%float) (seq 0 (length l)) = l.
Proof.
  apply nth_ext with (d := 0%float) (d' := 0%float).
  - now rewrite length_map, length_seq.
  - intros k Hk. rewrite length_map, length_seq in Hk. now apply nth_map_seq.
Qed.

Lemma at_fill r c f i j : i < r -> j < c -> at_ (fill r c f) i j = f i j.
Proof.
  intros Hi Hj. unfold at_, fill; simpl.
  rewrite nth_map_seq by now apply colmajor_bound.
  now rewrite colmajor_mod, colmajor_div.
Qed.

Lemma wf_fill r c f : wf (fill r c f).
Proof. unfold wf, n_elem, fill; simpl. now rewrite length_map, length_seq. Qed.

Lemma fill_ext r c f g :
  (forall i j, i < r -> j < c -> f i j = g i j) -> fill r c f = fill r c g.
Proof.
  intros Hfg. unfold fill. f_equal. apply map_ext_in. intros k Hk.
  apply in_seq in Hk. destruct (index_split r c k) as [? ?]; [lia|]. now apply Hfg.
Qed.

Lemma row_fill r c f i :
  i < r -> row (fill r c f) i = map (fun j => f i j) (seq 0 c).
Proof.
  intros Hi. unfold row; simpl. apply map_ext_in. intros j Hj.
  apply in_seq in Hj. apply at_fill; lia.
Qed.

Lemma at_t M i j : i < n_cols M -> j < n_rows M -> at_ (t M) i j = at_ M j i.
Proof. intros. unfold t. now rewrite at_fill. Qed.

Lemma at_mat_aux buf r c i j :
  i < r -> j < c -> at_ (mat_aux buf r c) i j = nth (i + j * r) buf 0%float.
Proof.
  intros Hi Hj. unfold at_, mat_aux; simpl. rewrite nth_firstn.
  pose proof (colmajor_bound r c i j Hi Hj) as Hlt.
  apply Nat.ltb_lt in Hlt. now rewrite Hlt.
Qed.

Lemma at_vec (v : vec) i : at_ v i 0 = nth i (mem v) 0%float.
Proof. unfold at_. f_equal. lia. Qed.

Lemma length_vec (v : vec) n : is_vec v n -> length (mem v) = n.
Proof.
  intros (Hwf & Hn & Hc). unfold wf, n_elem in Hwf. rewrite Hwf, Hn, Hc. lia.
Qed.

(** The single column of a vector is its memory. *)
Lemma col_vec (v : vec) n : is_vec v n -> col v 0 = mem v.
Proof.
  intros Hv. pose proof (length_vec v n Hv) as Hlen. destruct Hv as (_ & Hn & _).
  unfold col. rewrite Hn, <- Hlen.
  transitivity (map (fun i => nth i (mem v) 0%float) (seq 0 (length (mem v)))).
  - apply map_ext. intros i. apply at_vec.
  - apply nth_seq_id.
Qed.

Lemma length_row (M : mat) i : length (row M i) = n_cols M.
Proof. unfold row. now rewrite length_map, length_seq. Qed.

Lemma nth_row (M : mat) i j : j < n_cols M -> nth j (row M i) 0%float = at_ M i j.
Proof. intros Hj. unfold row. now rewrite nth_map_seq. Qed.

End addressing.

(** ** The NumPy heap *)

Section heap_facts.

Lemma array_new_spec shp (h : heap) :
  let '(r, h') := array_new shp h in
  (data r ∉ dom h) /\ shape r = shp /\
  h' = <[data r := repeat 0%float (size_of shp)]> h.
Proof. unfold array_new; simpl. split; [apply is_fresh | easy]. Qed.

Lemma memcpy_full (h : heap) p old src n :
  h !! p = Some old -> length src = n -> length old = n ->
  memcpy p src n h = <[p := src]> h.
Proof.
  intros Hp Hs Ho. unfold memcpy.
  rewrite <- (insert_id h p old) at 1 by exact Hp.
  rewrite alter_insert_eq. f_equal.
  rewrite firstn_all2 by lia. rewrite skipn_all2 by lia. apply app_nil_r.
Qed.

(** Allocation followed by a full [memcpy]: the body shared by the two
    converters towards Python. *)
Lemma alloc_copy (h : heap) shp src n :
  length src = n -> size_of shp = n ->
  let '(r, h1) := array_new shp h in
  memcpy (ptr (request r)) src n h1 = <[data r := src]> h.
Proof.
  intros Hlen Hshp. unfold array_new; simpl.
  erewrite memcpy_full;
    [ | apply lookup_insert_eq | exact Hlen | rewrite repeat_length; exact Hshp ].
  apply insert_insert_eq.
Qed.

Lemma arma_vec_to_pyarray_spec (v : vec) (h : heap) :
  wf v ->
  let '(r, h') := arma_vec_to_pyarray v h in
  (data r ∉ dom h) /\ shape r = [n_elem v] /\ h' = <[data r := mem v]> h.
Proof.
  intros Hv. unfold arma_vec_to_pyarray.
  pose proof (alloc_copy h [n_elem v] (mem v) (n_elem v) Hv) as Hc.
  pose proof (array_new_spec [n_elem v] h) as Hn.
  destruct (array_new [n_elem v] h) as [r h1].
  destruct Hn as (Hfresh & Hshape & _).
  rewrite Hc by (simpl; lia). auto.
Qed.

Lemma arma_mat_to_pyarray_spec (M : mat) (h : heap) :
  wf M ->
  let '(r, h') := arma_mat_to_pyarray M h in
  (data r ∉ dom h) /\ shape r = [n_rows M; n_cols M] /\ h' = <[data r := mem M]> h.
Proof.
  intros HM. unfold arma_mat_to_pyarray.
  pose proof (alloc_copy h [n_rows M; n_cols M] (mem M) (n_elem M) HM) as Hc.
  pose proof (array_new_spec [n_rows M; n_cols M] h) as Hn.
  destruct (array_new [n_rows M; n_cols M] h) as [r h1].
  destruct Hn as (Hfresh & Hshape & _).
  rewrite Hc by (unfold n_elem; simpl; lia). auto.
Qed.

Lemma deref_insert (h : heap) p buf : deref (<[p := buf]> h) p = buf.
Proof. unfold deref. now rewrite lookup_insert_eq. Qed.

Lemma deref_valid (h : heap) (a : array_t) :
  valid h a -> length (deref h (data a)) = size_of (shape a).
Proof. intros (buf & Hbuf & Hlen). unfold deref. now rewrite Hbuf. Qed.

Lemma valid_in_dom (h : heap) (a : array_t) : valid h a -> data a ∈ dom h.
Proof. intros (buf & Hbuf & _). apply elem_of_dom. now exists buf. Qed.

(** Writing at an unused address leaves every live buffer alone. *)
Lemma insert_fresh_lookup (h : heap) p q buf :
  p ∉ dom h -> q ∈ dom h -> <[p := buf]> h !! q = h !! q.
Proof. intros Hp Hq. apply lookup_insert_ne. intros ->. contradiction. Qed.

(** The vector that [pyarray_to_arma_vec] builds over a buffer of exactly [n]
    doubles holds that buffer. *)
Lemma vec_aux_all (buf : list float) (n : nat) :
  length buf = n -> mem (vec_aux buf n) = buf /\ wf (vec_aux buf n) /\ n_elem (vec_aux buf n) = n.
Proof.
  intros Hlen. unfold wf, n_elem, vec_aux, mat_aux; simpl.
  rewrite firstn_all2 by lia. repeat split; lia.
Qed.

(** Sending a vector that holds [buf] to Python yields a valid 1-D array at
    an unused address whose buffer is [buf]; live buffers are untouched. *)
Lemma arma_vec_to_pyarray_fresh (v : vec) (h : heap) :
  wf v ->
  exists r h',
    arma_vec_to_pyarray v h = (r, h') /\
    (data r ∉ dom h) /\ shape r = [n_elem v] /\ valid h' r /\
    deref h' (data r) = mem v /\
    (forall q, q ∈ dom h -> h' !! q = h !! q).
Proof.
  intros Hv. pose proof (arma_vec_to_pyarray_spec v h Hv) as Hspec.
  destruct (arma_vec_to_pyarray v h) as [r h'].
  destruct Hspec as (Hfresh & Hr & ->).
  exists r, (<[data r := mem v]> h). split; [reflexivity|].
  split; [exact Hfresh|]. split; [exact Hr|]. split; [|split].
  - exists (mem v). split; [apply lookup_insert_eq|].
    rewrite Hr. unfold size_of, foldr. rewrite Nat.mul_1_r. exact Hv.
  - apply deref_insert.
  - intros q Hq. now apply insert_fresh_lookup.
Qed.

End heap_facts.

(** ** NumPy to Armadillo *)

(** C3: for a row-major array of shape (n, d), [pyarray_to_arma_mat] returns
    an n x d matrix whose element (i, j) is the array's element (i, j). *)
Theorem pyarray_to_arma_mat_elements (h : heap) (arr : array_t) (n d : nat) :
  shape arr = [n; d] ->
  let M := pyarray_to_arma_mat h arr in
  n_rows M = n /\ n_cols M = d /\ wf M /\
  forall i j, i < n -> j < d -> at_ M i j = item2 h arr i j.
Proof.
  intros Hshape. unfold pyarray_to_arma_mat, request, shape_at; simpl.
  rewrite Hshape; simpl. repeat split.
  - apply wf_fill.
  - intros i j Hi Hj. unfold item2. rewrite Hshape; simpl.
    rewrite at_t by (simpl; lia). rewrite at_mat_aux by lia.
    f_equal. lia.
Qed.

Lemma pyarray_to_arma_mat_elements_witness :
  shape A23 = [2; 3] /\
  let M := pyarray_to_arma_mat h23 A23 in
  n_rows M = 2 /\ n_cols M = 3 /\ wf M /\
  forall i j, i < 2 -> j < 3 -> at_ M i j = item2 h23 A23 i j.
Proof.
  split; [reflexivity|].
  exact (pyarray_to_arma_mat_elements h23 A23 2 3 eq_refl).
Defined.

(** C6: [pyarray_to_arma_vec] returns a vector exactly for arrays of rank 1
    or 2, and throws [std::runtime_error] for every other rank; there is no
    third outcome. *)
Theorem pyarray_to_arma_vec_rank (h : heap) (arr : array_t) :
  ((exists v, pyarray_to_arma_vec h arr = Ok v) <->
     (length (shape arr) = 1 \/ length (shape arr) = 2)) /\
  (pyarray_to_arma_vec h arr = Throw (runtime_error "Expected a 1D or 2D vector.") <->
     ~ (length (shape arr) = 1 \/ length (shape arr) = 2)).
Proof.
  unfold pyarray_to_arma_vec, request; simpl.
  destruct (Nat.eqb_spec (length (shape arr)) 1) as [E1 | N1].
  - split; split; intros H; eauto; try discriminate. exfalso; apply H; now left.
  - destruct (Nat.eqb_spec (length (shape arr)) 2) as [E2 | N2].
    + split; split; intros H; eauto; try discriminate. exfalso; apply H; now right.
    + split; split; intros H.
      * destruct H as [v Hv]; discriminate.
      * destruct H; contradiction.
      * intros [? | ?]; contradiction.
      * reflexivity.
Qed.

(** ** Round trips through the vector path *)

(** C7: a 1-D array sent through [pyarray_to_arma_vec] and back through
    [arma_vec_to_pyarray] comes back as an array at an address that was not
    in use, of the same length and with the same elements; the input buffer
    is untouched. *)
Theorem vec_roundtrip_1d (h : heap) (a : array_t) (n : nat) :
  valid h a -> shape a = [n] ->
  exists v r h',
    pyarray_to_arma_vec h a = Ok v /\ arma_vec_to_pyarray v h = (r, h') /\
    (data r ∉ dom h) /\ shape r = [n] /\ valid h' r /\
    (forall k, k < n -> item1 h' r k = item1 h a k) /\
    h' !! data a = h !! data a.
Proof.
  intros Hvalid Hshape.
  pose proof (deref_valid h a Hvalid) as Hlen.
  rewrite Hshape in Hlen. unfold size_of, foldr in Hlen. rewrite Nat.mul_1_r in Hlen.
  destruct (vec_aux_all _ _ Hlen) as (Hmem & Hwf & Hn).
  destruct (arma_vec_to_pyarray_fresh _ h Hwf)
    as (r & h' & Hrun & Hfresh & Hr & Hvr & Hbuf & Hold).
  exists (vec_aux (deref h (data a)) n), r, h'.
  split; [|split; [exact Hrun|split; [exact Hfresh|split; [|split; [exact Hvr|split]]]]].
  - unfold pyarray_to_arma_vec, request, shape_at; simpl. now rewrite Hshape.
  - now rewrite Hr, Hn.
  - intros k _. unfold item1. now rewrite Hbuf, Hmem.
  - apply Hold. now apply valid_in_dom.
Qed.

Lemma vec_roundtrip_1d_witness :
  valid h3 a3 /\ shape a3 = [3] /\
  exists v r h',
    pyarray_to_arma_vec h3 a3 = Ok v /\ arma_vec_to_pyarray v h3 = (r, h') /\
    (data r ∉ dom h3) /\ shape r = [3] /\ valid h' r /\
    (forall k, k < 3 -> item1 h' r k = item1 h3 a3 k) /\
    h' !! data a3 = h3 !! data a3.
Proof.
  assert (Hvalid : valid h3 a3).
  { exists [1.5; 2; 3]%float. split; reflexivity. }
  split; [exact Hvalid | split; [reflexivity | ]].
  exact (vec_roundtrip_1d h3 a3 3 Hvalid eq_refl).
Defined.

(** C10: a row-major 2-D array of shape (r, c) sent through the vector path
    comes back as a 1-D array of length r*c whose element k is the element
    (k / c, k mod c) of the input: its row-major flattening. *)
Theorem vec_roundtrip_2d (h : heap) (A : array_t) (r c : nat) :
  valid h A -> shape A = [r; c] ->
  exists v res h',
    pyarray_to_arma_vec h A = Ok v /\ arma_vec_to_pyarray v h = (res, h') /\
    (data res ∉ dom h) /\ shape res = [r * c] /\ valid h' res /\
    (forall k, k < r * c -> item1 h' res k = item2 h A (k / c) (k mod c)).
Proof.
  intros Hvalid Hshape.
  pose proof (deref_valid h A Hvalid) as Hlen.
  rewrite Hshape in Hlen. unfold size_of, foldr in Hlen. rewrite Nat.mul_1_r in Hlen.
  destruct (vec_aux_all _ _ Hlen) as (Hmem & Hwf & Hn).
  destruct (arma_vec_to_pyarray_fresh _ h Hwf)
    as (res & h' & Hrun & Hfresh & Hr & Hvr & Hbuf & _).
  exists (vec_aux (deref h (data A)) (r * c)), res, h'.
  split; [|split; [exact Hrun|split; [exact Hfresh|split; [|split; [exact Hvr|]]]]].
  - unfold pyarray_to_arma_vec, request, shape_at; simpl. now rewrite Hshape.
  - now rewrite Hr, Hn.
  - intros k Hk. unfold item1, item2. rewrite Hbuf, Hmem, Hshape; simpl.
    f_equal. pose proof (Nat.div_mod_eq k c). lia.
Qed.

Lemma vec_roundtrip_2d_witness :
  valid h23 A23 /\ shape A23 = [2; 3] /\
  exists v res h',
    pyarray_to_arma_vec h23 A23 = Ok v /\ arma_vec_to_pyarray v h23 = (res, h') /\
    (data res ∉ dom h23) /\ shape res = [2 * 3] /\ valid h' res /\
    (forall k, k < 2 * 3 -> item1 h' res k = item2 h23 A23 (k / 3) (k mod 3)).
Proof.
  assert (Hvalid : valid h23 A23).
  { exists [1; 2; 3; 4; 5; 6]%float. split; reflexivity. }
  split; [exact Hvalid | split; [reflexivity | ]].
  exact (vec_roundtrip_2d h23 A23 2 3 Hvalid eq_refl).
Defined.

(** ** Armadillo to NumPy: the matrix path *)

(** X1: what [arma_mat_to_pyarray] produces: an array of shape (n_rows, n_cols)
    at an unused address whose row-major buffer is the matrix's column-major
    memory, copied as it lies.  Position (i, j) of the result therefore holds
    the matrix element whose column-major offset is [i * n_cols + j]. *)
Lemma arma_mat_to_pyarray_layout (M : mat) (h : heap) :
  wf M ->
  let '(r, h') := arma_mat_to_pyarray M h in
  (data r ∉ dom h) /\ shape r = [n_rows M; n_cols M] /\
  deref h' (data r) = mem M /\
  forall i j, i < n_rows M -> j < n_cols M ->
    item2 h' r i j =
    at_ M ((i * n_cols M + j) mod n_rows M) ((i * n_cols M + j) / n_rows M).
Proof.
  intros HM. pose proof (arma_mat_to_pyarray_spec M h HM) as Hspec.
  destruct (arma_mat_to_pyarray M h) as [r h'].
  destruct Hspec as (Hfresh & Hr & ->). repeat split; auto.
  - apply deref_insert.
  - intros i j Hi Hj. unfold item2, at_. rewrite deref_insert, Hr; simpl.
    f_equal. pose proof (Nat.div_mod_eq (i * n_cols M + j) (n_rows M)). lia.
Qed.

Lemma arma_mat_to_pyarray_layout_witness :
  wf M23 /\
  let '(r, h') := arma_mat_to_pyarray M23 ∅ in
  (data r ∉ dom (∅ : heap)) /\ shape r = [n_rows M23; n_cols M23] /\
  deref h' (data r) = mem M23 /\
  forall i j, i < n_rows M23 -> j < n_cols M23 ->
    item2 h' r i j =
    at_ M23 ((i * n_cols M23 + j) mod n_rows M23) ((i * n_cols M23 + j) / n_rows M23).
Proof.
  split; [reflexivity|]. exact (arma_mat_to_pyarray_layout M23 ∅ eq_refl).
Defined.

(** For a column vector the two layouts coincide, which is why the vector
    path is not affected. *)
Lemma arma_mat_to_pyarray_column (v : vec) (h : heap) (n : nat) :
  is_vec v n ->
  let '(r, h') := arma_mat_to_pyarray v h in
  shape r = [n; 1] /\ forall i, i < n -> item2 h' r i 0 = at_ v i 0.
Proof.
  intros (Hwf & Hn & Hc). pose proof (arma_mat_to_pyarray_spec v h Hwf) as Hspec.
  destruct (arma_mat_to_pyarray v h) as [r h'].
  destruct Hspec as (_ & Hr & ->). rewrite Hn, Hc in Hr. split; [exact Hr|].
  intros i Hi. unfold item2. rewrite deref_insert, Hr, at_vec; simpl.
  f_equal. lia.
Qed.

(** The memory of the matrix built from an array of shape (n, d): offset
    [k], which is position (k mod n, k / n), holds the array element at that
    position. *)
Lemma mem_pyarray_to_arma_mat (h : heap) (A : array_t) (n d k : nat) :
  shape A = [n; d] -> k < n * d ->
  nth k (mem (pyarray_to_arma_mat h A)) 0%float =
  nth ((k mod n) * d + k / n) (deref h (data A)) 0%float.
Proof.
  intros Hshape Hk. destruct (index_split n d k Hk) as [Hi Hj].
  unfold pyarray_to_arma_mat, request, shape_at, t; simpl. rewrite Hshape; simpl.
  rewrite nth_map_seq by exact Hk. rewrite at_mat_aux by assumption.
  f_equal. lia.
Qed.

Lemma mat_roundtrip_buffer (h : heap) (A : array_t) (n d : nat) :
  shape A = [n; d] ->
  let '(r, h') := arma_mat_to_pyarray (pyarray_to_arma_mat h A) h in
  (data r ∉ dom h) /\ shape r = [n; d] /\
  deref h' (data r) = mem (pyarray_to_arma_mat h A).
Proof.
  intros Hshape.
  pose proof (arma_mat_to_pyarray_spec (pyarray_to_arma_mat h A) h (wf_fill _ _ _)) as Hspec.
  destruct (arma_mat_to_pyarray (pyarray_to_arma_mat h A) h) as [r h'].
  destruct Hspec as (Hfresh & Hr & ->).
  split; [exact Hfresh|]. split; [|apply deref_insert].
  rewrite Hr. unfold pyarray_to_arma_mat, request, shape_at; simpl. now rewrite Hshape.
Qed.

(** X2: the round trip of an array of shape (n, d) through the matrix path
    keeps the shape, but position (i, j) of the result holds the input
    element whose transposed (column-major) offset is [i * d + j]. *)
Lemma mat_roundtrip_layout (h : heap) (A : array_t) (n d : nat) :
  shape A = [n; d] ->
  let '(r, h') := arma_mat_to_pyarray (pyarray_to_arma_mat h A) h in
  (data r ∉ dom h) /\ shape r = [n; d] /\
  forall i j, i < n -> j < d ->
    item2 h' r i j = item2 h A ((i * d + j) mod n) ((i * d + j) / n).
Proof.
  intros Hshape. pose proof (mat_roundtrip_buffer h A n d Hshape) as Hbuf.
  destruct (arma_mat_to_pyarray (pyarray_to_arma_mat h A) h) as [r h'].
  destruct Hbuf as (Hfresh & Hr & Hbuf).
  split; [exact Hfresh|]. split; [exact Hr|].
  intros i j Hi Hj. unfold item2. rewrite Hbuf, Hr, Hshape; simpl.
  apply mem_pyarray_to_arma_mat; [exact Hshape | nia].
Qed.

Lemma mat_roundtrip_layout_witness :
  shape A23 = [2; 3] /\
  let '(r, h') := arma_mat_to_pyarray (pyarray_to_arma_mat h23 A23) h23 in
  (data r ∉ dom h23) /\ shape r = [2; 3] /\
  forall i j, i < 2 -> j < 3 ->
    item2 h' r i j = item2 h23 A23 ((i * 3 + j) mod 2) ((i * 3 + j) / 2).
Proof.
  split; [reflexivity|]. exact (mat_roundtrip_layout h23 A23 2 3 eq_refl).
Defined.

(** X4: for an array with a single row or a single column the two layouts
    coincide, and the round trip through the matrix path gives the array
    back at an unused address. *)
Theorem mat_roundtrip_thin (h : heap) (A : array_t) (n d : nat) :
  shape A = [n; d] -> n = 1 \/ d = 1 ->
  let '(r, h') := arma_mat_to_pyarray (pyarray_to_arma_mat h A) h in
  (data r ∉ dom h) /\ shape r = [n; d] /\
  forall i j, i < n -> j < d -> item2 h' r i j = item2 h A i j.
Proof.
  intros Hshape Hthin. pose proof (mat_roundtrip_buffer h A n d Hshape) as Hbuf.
  destruct (arma_mat_to_pyarray (pyarray_to_arma_mat h A) h) as [r h'].
  destruct Hbuf as (Hfresh & Hr & Hbuf).
  split; [exact Hfresh|]. split; [exact Hr|].
  intros i j Hi Hj. unfold item2. rewrite Hbuf, Hr, Hshape; simpl.
  rewrite (mem_pyarray_to_arma_mat h A n d) by (exact Hshape || nia).
  f_equal. destruct Hthin as [-> | ->].
  - assert (i = 0) as -> by lia. rewrite Nat.mod_1_r, Nat.div_1_r. lia.
  - assert (j = 0) as -> by lia.
    rewrite Nat.mul_1_r, Nat.add_0_r, Nat.mod_small, Nat.div_small by lia. lia.
Qed.

Lemma mat_roundtrip_thin_witness :
  shape A31 = [3; 1] /\ (3 = 1 \/ 1 = 1) /\
  let '(r, h') := arma_mat_to_pyarray (pyarray_to_arma_mat h31 A31) h31 in
  (data r ∉ dom h31) /\ shape r = [3; 1] /\
  forall i j, i < 3 -> j < 1 -> item2 h' r i j = item2 h31 A31 i j.
Proof.
  split; [reflexivity|]. split; [right; reflexivity|].
  exact (mat_roundtrip_thin h31 A31 3 1 eq_refl (or_intror eq_refl)).
Defined.

(** C2 fails on the code: for the 2 x 3 matrix [M23], whose element (0, 1)
    is 2, the array returned by [arma_mat_to_pyarray] has shape (2, 3) but
    holds 4 at position (0, 1); its buffer is the column-major memory. *)
Theorem arma_mat_to_pyarray_keeps_colmajor :
  let '(r, h') := arma_mat_to_pyarray M23 ∅ in
  shape r = [2; 3] /\
  at_ M23 0 1 = 2%float /\ item2 h' r 0 1 = 4%float /\
  deref h' (data r) = [1; 4; 2; 5; 3; 6]%float.
Proof. vm_compute. repeat split. Qed.

(** C1 fails on the code: the array [[1,2,3],[4,5,6]] converted by
    [pyarray_to_arma_mat] and back by [arma_mat_to_pyarray] comes back with
    shape (2, 3) and buffer 1,4,2,5,3,6: position (0, 1) holds 4, not 2. *)
Theorem mat_roundtrip_permutes :
  let '(r, h') := arma_mat_to_pyarray (pyarray_to_arma_mat h23 A23) h23 in
  shape r = [2; 3] /\
  item2 h23 A23 0 1 = 2%float /\ item2 h' r 0 1 = 4%float /\
  deref h' (data r) = [1; 4; 2; 5; 3; 6]%float.
Proof. vm_compute. repeat split. Qed.

(** ** Binary64 facts

    Derived from the specification of the primitive operations
    ([add_spec], [mul_spec], [div_spec]) over [spec_float]. *)

Module FloatFacts.

Import Binary64.
Local Open Scope float_scope.

Lemma of_SF (x : float) (a : spec_float) : Prim2SF x = a -> x = SF2Prim a.
Proof. intros <-. symmetry. apply SF2Prim_Prim2SF. Qed.

(** *** Addition commutes *)

Lemma SF64add_comm x y : SF64add x y = SF64add y x.
Proof.
  unfold SF64add, SFadd.
  destruct x as [sx|sx| |sx mx ex], y as [sy|sy| |sy my ey];
    try reflexivity; try (destruct sx, sy; reflexivity).
  rewrite (Z.min_comm ey ex). f_equal. apply Z.add_comm.
Qed.

Lemma add_comm (x y : float) : x + y = y + x.
Proof. apply Prim2SF_inj. rewrite !add_spec. apply SF64add_comm. Qed.

(** *** NaN and zero *)

Lemma nan_add (b : float) : nan + b = nan.
Proof.
  pose proof (add_spec nan b) as H. change (Prim2SF nan) with S754_nan in H.
  apply of_SF in H. exact H.
Qed.

(** A product with zero is a zero or, for an infinite or NaN factor, NaN. *)
Lemma zero_mul (a : float) : 0 * a = 0 \/ 0 * a = -0 \/ 0 * a = nan.
Proof.
  pose proof (mul_spec 0 a) as H. change (Prim2SF 0) with (S754_zero false) in H.
  destruct (Prim2SF a) as [s|s| |s m e]; apply of_SF in H;
    try (destruct s); auto.
Qed.

(** Zero or NaN divided by a zero is NaN. *)
Lemma div_zero_nan (a z : float) :
  a = 0 \/ a = -0 \/ a = nan -> z = 0 \/ z = -0 -> a / z = nan.
Proof. intros [-> | [-> | ->]] [-> | ->]; reflexivity. Qed.

(** *** Finite values *)

Lemma is_finite_SF (x : float) : is_finite x = sf_finite (Prim2SF x).
Proof.
  unfold is_finite, is_nan, is_infinity.
  rewrite !FloatAxioms.eqb_spec, abs_spec.
  change (Prim2SF infinity) with (S754_infinity false).
  destruct (Prim2SF x) as [s|s| |s m e]; try (destruct s; reflexivity); try reflexivity.
  unfold SFeqb, SFcompare, SFabs.
  rewrite Z.compare_refl, Pos.compare_cont_refl. destruct s; reflexivity.
Qed.

Lemma finite_SF (x : float) :
  is_finite x = true ->
  (exists s, Prim2SF x = S754_zero s) \/ (exists s m e, Prim2SF x = S754_finite s m e).
Proof.
  rewrite is_finite_SF. destruct (Prim2SF x) as [s|s| |s m e]; try discriminate; eauto.
Qed.

Lemma is_zero_SF (x : float) s : Prim2SF x = S754_zero s -> is_zero x = true.
Proof.
  intros H. unfold is_zero. rewrite FloatAxioms.eqb_spec, H.
  change (Prim2SF zero) with (S754_zero false). reflexivity.
Qed.

Lemma zero_mul_finite (m : float) :
  is_finite m = true -> 0 * m = 0 \/ 0 * m = -0.
Proof.
  intros H. pose proof (mul_spec 0 m) as Hm.
  change (Prim2SF 0) with (S754_zero false) in Hm.
  destruct (finite_SF m H) as [[s Hs] | (s & mm & e & Hs)];
    rewrite Hs in Hm; apply of_SF in Hm; destruct s; auto.
Qed.

(** A sum or product is finite only if both operands are. *)
Lemma SFadd_finite_inv a b :
  sf_finite (SF64add a b) = true -> sf_finite a = true /\ sf_finite b = true.
Proof.
  destruct a as [sa|sa| |sa ma ea], b as [sb|sb| |sb mb eb];
    try (intros _; split; reflexivity); try discriminate.
  destruct sa, sb; discriminate.
Qed.

Lemma SFmul_finite_inv a b :
  sf_finite (SF64mul a b) = true -> sf_finite a = true /\ sf_finite b = true.
Proof.
  destruct a as [sa|sa| |sa ma ea], b as [sb|sb| |sb mb eb];
    try (intros _; split; reflexivity); discriminate.
Qed.

Lemma add_finite_inv (x y : float) :
  is_finite (x + y) = true -> is_finite x = true /\ is_finite y = true.
Proof. rewrite !is_finite_SF, add_spec. apply SFadd_finite_inv. Qed.

Lemma mul_finite_inv (x y : float) :
  is_finite (x * y) = true -> is_finite x = true /\ is_finite y = true.
Proof. rewrite !is_finite_SF, mul_spec. apply SFmul_finite_inv. Qed.

Lemma fold_finite_acc (l : list (float * float)) (acc : float) :
  is_finite (fold_left (fun acc p => acc + fst p * snd p) l acc) = true ->
  is_finite acc = true.
Proof.
  revert acc. induction l as [|p l IH]; intros acc H; [exact H|].
  simpl in H. apply IH in H. now apply add_finite_inv in H.
Qed.

Lemma fold_finite_inv (l : list (float * float)) (acc : float) :
  is_finite (fold_left (fun acc p => acc + fst p * snd p) l acc) = true ->
  Forall (fun p => is_finite (fst p) = true /\ is_finite (snd p) = true) l.
Proof.
  revert acc. induction l as [|p l IH]; intros acc H; [constructor|].
  simpl in H. constructor.
  - apply fold_finite_acc, add_finite_inv in H. destruct H as [_ Hp].
    now apply mul_finite_inv.
  - now apply IH in H.
Qed.

(** A finite inner product has only finite factors. *)
Lemma dot_finite_inv (x y : list float) (j : nat) :
  length x = length y -> is_finite (dot x y) = true -> (j < length x)%nat ->
  is_finite (nth j x 0) = true /\ is_finite (nth j y 0) = true.
Proof.
  intros Hlen Hfin Hj. apply fold_finite_inv in Hfin.
  rewrite List.Forall_forall in Hfin.
  apply (Hfin (nth j x 0, nth j y 0)).
  rewrite <- combine_nth by exact Hlen. apply nth_In.
  rewrite length_combine. lia.
Qed.

(** *** Multiplying and dividing by one is exact *)

Lemma iter_pos_nat {A} (f : A -> A) (p : positive) (x : A) :
  SpecFloat.iter_pos f p x = Nat.iter (Pos.to_nat p) f x.
Proof.
  revert x. induction p as [p IH | p IH | ]; intros x; cbn [SpecFloat.iter_pos].
  - rewrite !IH, Pos2Nat.inj_xI, <- Nat.iter_succ_r, <- Nat.iter_add.
    f_equal. lia.
  - rewrite !IH, Pos2Nat.inj_xO, <- Nat.iter_add. f_equal. lia.
  - reflexivity.
Qed.

Lemma digits2_shl m n :
  (Zpos (digits2_pos (shl m n)) = Zpos (digits2_pos m) + Z.of_nat n)%Z.
Proof.
  induction n as [|n IH]; [simpl; lia|].
  unfold shl in *. rewrite Nat.iter_succ. cbn [digits2_pos].
  rewrite Pos2Z.inj_succ, IH. lia.
Qed.

(** Shifting right undoes shifting left, and nothing is lost. *)
Lemma shr_shl m n :
  Nat.iter n shr_1 {| shr_m := Zpos (shl m n); shr_r := false; shr_s := false |}
  = {| shr_m := Zpos m; shr_r := false; shr_s := false |}.
Proof.
  induction n as [|n IH]; [reflexivity|].
  rewrite Nat.iter_succ_r. unfold shl. rewrite Nat.iter_succ. exact IH.
Qed.

(** Rounding a canonical mantissa that was only shifted left gives the
    number back. *)
Lemma binary_round_aux_shl s m e n :
  bounded prec emax m e = true ->
  binary_round_aux prec emax s (Zpos (shl m n)) (e - Z.of_nat n) loc_Exact
  = S754_finite s m e.
Proof.
  intros Hb. unfold bounded, canonical_mantissa in Hb.
  apply andb_prop in Hb as [Hc He]. apply Z.eqb_eq in Hc.
  unfold binary_round_aux, shr_fexp. cbn [Zdigits2 shr_record_of_loc].
  rewrite digits2_shl.
  replace (Zpos (digits2_pos m) + Z.of_nat n + (e - Z.of_nat n))%Z
    with (Zpos (digits2_pos m) + e)%Z by lia.
  rewrite Hc.
  replace (e - (e - Z.of_nat n))%Z with (Z.of_nat n) by lia.
  assert (Hshr : shr {| shr_m := Zpos (shl m n); shr_r := false; shr_s := false |}
                   (e - Z.of_nat n) (Z.of_nat n)
                 = ({| shr_m := Zpos m; shr_r := false; shr_s := false |}, e)).
  { destruct n as [|n].
    - simpl. f_equal. lia.
    - unfold shr. rewrite Nat2Z.inj_succ, <- Zpos_P_of_succ_nat.
      rewrite iter_pos_nat, SuccNat2Pos.id_succ, shr_shl. f_equal.
      rewrite Zpos_P_of_succ_nat. lia. }
  rewrite Hshr. cbn [shr_m loc_of_shr_record round_nearest_even Zdigits2 shr_record_of_loc].
  rewrite Hc, Z.sub_diag. cbn [shr shr_m]. now rewrite He.
Qed.

Lemma SFmul_one_l s m e :
  bounded prec emax m e = true ->
  SF64mul SFone (S754_finite s m e) = S754_finite s m e.
Proof.
  intros Hb. unfold SF64mul, SFmul, SFone. cbn [xorb].
  change (4503599627370496 * m)%positive with (shl m 52).
  replace (-52 + e)%Z with (e - Z.of_nat 52)%Z by lia.
  now apply binary_round_aux_shl.
Qed.

(** The quotient of [m * 2^k] by [2^52] in the two cases that occur. *)
Lemma div_eucl_pow2 (m : positive) (k : Z) (q r : Z) :
  (k = 52 \/ k = 53)%Z ->
  Z.div_eucl (Z.shiftl (Zpos m) k) 4503599627370496 = (q, r) ->
  (q = Zpos m * 2 ^ (k - 52) /\ r = 0)%Z.
Proof.
  intros Hk Hqr.
  pose proof (Z_div_mod (Z.shiftl (Zpos m) k) 4503599627370496 eq_refl) as Hdm.
  rewrite Hqr, Z.shiftl_mul_pow2 in Hdm by lia.
  destruct Hk as [-> | ->]; cbn [Z.sub Z.pow Z.pow_pos Pos.iter Z.mul Pos.mul] in *; lia.
Qed.

Lemma SFdiv_one_r s m e :
  bounded prec emax m e = true ->
  SF64div (S754_finite s m e) SFone = S754_finite s m e.
Proof.
  intros Hb. pose proof Hb as Hb'. unfold bounded, canonical_mantissa in Hb'.
  apply andb_prop in Hb' as [Hc _]. apply Z.eqb_eq in Hc.
  unfold fexp, SpecFloat.emin, prec, emax in Hc.
  pose proof (Pos2Z.is_pos (digits2_pos m)) as Hd.
  unfold SF64div, SFdiv, SFone, SFdiv_core_binary.
  cbn [Zdigits2 digits2_pos Pos.succ]. rewrite xorb_false_r.
  unfold fexp, SpecFloat.emin, prec, emax.
  set (e' := Z.min _ _).
  assert (He' : ((e' = e /\ e - -52 - e' = 52) \/ (e' = e - 1 /\ e - -52 - e' = 53))%Z)
    by (unfold e'; lia).
  destruct He' as [[-> ->] | [-> ->]].
  - destruct (Z.div_eucl (Z.shiftl (Zpos m) 52) 4503599627370496) as [q r] eqn:Hqr.
    apply div_eucl_pow2 in Hqr as [-> ->]; [|now left].
    change (Zpos m * 2 ^ (52 - 52))%Z with (Zpos (shl m 0) * 1)%Z. rewrite Z.mul_1_r.
    change (new_location 4503599627370496 0) with loc_Exact.
    replace e with (e - Z.of_nat 0)%Z at 1 by lia.
    now apply binary_round_aux_shl.
  - destruct (Z.div_eucl (Z.shiftl (Zpos m) 53) 4503599627370496) as [q r] eqn:Hqr.
    apply div_eucl_pow2 in Hqr as [-> ->]; [|now right].
    replace (Zpos m * 2 ^ (53 - 52))%Z with (Zpos (shl m 1)) by (unfold shl; simpl; lia).
    change (new_location 4503599627370496 0) with loc_Exact.
    change (e - 1)%Z with (e - Z.of_nat 1)%Z.
    now apply binary_round_aux_shl.
Qed.

(** *** Operations that keep a finite number *)

Lemma fkeeps_refl (x : float) : is_finite x = true -> fkeeps x x.
Proof.
  intros H. unfold fkeeps.
  destruct (finite_SF x H) as [[s ->] | (s & m & e & ->)]; simpl; eauto.
Qed.

Lemma fkeeps_same (x r : float) : fkeeps x r -> same_double r x.
Proof.
  unfold fkeeps, keeps, same_double. intros H.
  destruct (Prim2SF x) as [s| | |s m e] eqn:Hx; try contradiction.
  - destruct H as [s' Hr]. right. split; eapply is_zero_SF; eauto.
  - left. apply Prim2SF_inj. congruence.
Qed.

Lemma fkeeps_add_zero (x r z : float) :
  z = 0 \/ z = -0 -> fkeeps x r -> fkeeps x (r + z).
Proof.
  unfold fkeeps, keeps. intros Hz H. rewrite add_spec.
  assert (Hz' : exists s, Prim2SF z = S754_zero s)
    by (destruct Hz as [-> | ->]; eexists; reflexivity).
  destruct Hz' as [sz ->].
  destruct (Prim2SF x) as [s| | |s m e]; try contradiction.
  - destruct H as [s' ->]. destruct s', sz; eexists; reflexivity.
  - rewrite H. reflexivity.
Qed.

Lemma fkeeps_one_mul (x r : float) : fkeeps x r -> fkeeps x (1 * r).
Proof.
  unfold fkeeps, keeps. intros H. rewrite mul_spec.
  change (Prim2SF 1) with SFone. pose proof (Prim2SF_valid r) as Hv.
  destruct (Prim2SF x) as [s| | |s m e]; try contradiction.
  - destruct H as [s' ->]. eexists; reflexivity.
  - rewrite H in *. now apply SFmul_one_l.
Qed.

Lemma fkeeps_div_one (x r : float) : fkeeps x r -> fkeeps x (r / 1).
Proof.
  unfold fkeeps, keeps. intros H. rewrite div_spec.
  change (Prim2SF 1) with SFone. pose proof (Prim2SF_valid r) as Hv.
  destruct (Prim2SF x) as [s| | |s m e]; try contradiction.
  - destruct H as [s' ->]. eexists; reflexivity.
  - rewrite H in *. now apply SFdiv_one_r.
Qed.

(** With [rho = 0] the denominator is exactly 1 whenever the inner product
    is finite. *)
Lemma denominator_rho_zero (d : float) :
  is_finite d = true -> 1 + 2 * 0 * d + 0 * 0 = 1.
Proof.
  intros Hd. change (2 * 0) with 0. change (0 * 0) with 0.
  assert (H1 : 1 + 0 * d = 1).
  { destruct (zero_mul_finite d Hd) as [-> | ->]; reflexivity. }
  rewrite H1. reflexivity.
Qed.

(** With [rho = 0] the value computed for one entry is the entry. *)
Lemma entry_rho_zero (x m d : float) :
  is_finite x = true -> is_finite m = true -> is_finite d = true ->
  same_double ((1 - 0 * 0) * (x + 0 * m) / (1 + 2 * 0 * d + 0 * 0) + 0 * m) x.
Proof.
  intros Hx Hm Hd. rewrite (denominator_rho_zero d Hd).
  change (1 - 0 * 0) with 1.
  pose proof (zero_mul_finite m Hm) as Hz.
  apply fkeeps_same, fkeeps_add_zero; [exact Hz|].
  apply fkeeps_div_one, fkeeps_one_mul, fkeeps_add_zero; [exact Hz|].
  now apply fkeeps_refl.
Qed.

End FloatFacts.

(** ** Element-wise operations on [fill]ed matrices *)

Section ops_facts.

Local Open Scope float_scope.

Lemma scalar_times_fill k r c f :
  scalar_times k (fill r c f) = fill r c (fun i j => k * f i j).
Proof. unfold scalar_times, fill; simpl. now rewrite map_map. Qed.

Lemma scalar_plus_fill k r c f :
  scalar_plus k (fill r c f) = fill r c (fun i j => k + f i j).
Proof. unfold scalar_plus, fill; simpl. now rewrite map_map. Qed.

Lemma plus_scalar_fill k r c f :
  plus_scalar (fill r c f) k = fill r c (fun i j => f i j + k).
Proof. unfold plus_scalar, fill; simpl. now rewrite map_map. Qed.

(** [rho * mu.t()] is the 1 x n row with [rho * mu(j)] in column j. *)
Lemma scaled_row (mu : vec) n rho :
  is_vec mu n ->
  scalar_times rho (t mu) = fill 1 n (fun _ j => rho * nth j (mem mu) 0).
Proof.
  intros (Hwf & Hn & Hc). unfold t. rewrite Hn, Hc, scalar_times_fill.
  apply fill_ext. intros i j Hi Hj.
  assert (i = 0)%nat as -> by lia. now rewrite at_vec.
Qed.

Lemma zip_with_map_seq {A} (f : float -> float -> A) (g : nat -> float) (l : list float) s :
  zip_with f (map g (seq s (length l))) l =
  map (fun j => f (g j) (nth (j - s) l 0)) (seq s (length l)).
Proof.
  revert s. induction l as [|m l IH]; intros s; simpl; [reflexivity|].
  rewrite Nat.sub_diag. f_equal. rewrite IH. apply map_ext_in.
  intros j Hj. apply in_seq in Hj.
  replace (j - s)%nat with (S (j - S s)) by lia. reflexivity.
Qed.

Lemma bind_Ok {A B} (a : A) (f : A -> result B) : Ok a ≫= f = f a.
Proof. reflexivity. Qed.

Lemma each_row_plus_ok (M r : mat) :
  n_rows r = 1%nat -> n_cols r = n_cols M ->
  each_row_plus M r = Ok (fill (n_rows M) (n_cols M) (fun i j => at_ M i j + at_ r 0 j)).
Proof. intros H1 H2. unfold each_row_plus. now rewrite H1, H2, !Nat.eqb_refl. Qed.

Lemma each_row_plus_throw (M r : mat) :
  n_cols r <> n_cols M ->
  each_row_plus M r = Throw (logic_error "each_row(): incompatible size").
Proof.
  intros H. unfold each_row_plus. apply Nat.eqb_neq in H.
  now rewrite H, andb_false_r.
Qed.

Lemma each_col_div_ok (M c : mat) :
  n_rows c = n_rows M -> n_cols c = 1%nat ->
  each_col_div M c = Ok (fill (n_rows M) (n_cols M) (fun i j => at_ M i j / at_ c i 0)).
Proof. intros H1 H2. unfold each_col_div. now rewrite H1, H2, !Nat.eqb_refl. Qed.

Lemma times_ok alpha (A B : mat) :
  n_cols A = n_rows B ->
  times alpha A B =
  Ok (fill (n_rows A) (n_cols B) (fun i j => alpha * dot (row A i) (col B j))).
Proof. intros H. unfold times. now rewrite H, Nat.eqb_refl. Qed.

End ops_facts.

(** ** The Moebius map *)

(** On conforming operands no size check fails, and the three statements of
    [Moebius_S] compute [moebius_entry] at every position. *)
Lemma Moebius_S_conforming (X : mat) (mu : vec) (rho : float) :
  is_vec mu (n_cols X) ->
  Moebius_S X mu rho = Ok (fill (n_rows X) (n_cols X) (moebius_entry X mu rho)).
Proof.
  intros Hmu. pose proof Hmu as (Hwf & Hn & Hc).
  unfold Moebius_S.
  rewrite (scaled_row mu (n_cols X) rho Hmu).
  rewrite each_row_plus_ok, bind_Ok by reflexivity.
  rewrite times_ok, bind_Ok by (symmetry; exact Hn).
  rewrite Hc, scalar_times_fill, scalar_plus_fill, plus_scalar_fill.
  rewrite each_col_div_ok, bind_Ok by reflexivity.
  rewrite each_row_plus_ok, bind_Ok by reflexivity.
  simpl. f_equal. apply fill_ext. intros i j Hi Hj.
  rewrite !at_fill by lia.
  rewrite (col_vec mu (n_cols X) Hmu). reflexivity.
Qed.

(** Armadillo's [each_row()] refuses a row of the wrong length before any
    arithmetic is done. *)
Lemma Moebius_S_nonconforming (X : mat) (mu : vec) (rho : float) :
  n_rows mu <> n_cols X ->
  Moebius_S X mu rho = Throw (logic_error "each_row(): incompatible size").
Proof.
  intros Hne. unfold Moebius_S.
  rewrite each_row_plus_throw; [reflexivity | simpl; exact Hne].
Qed.

(** C4: when [mu] has as many entries as [X] has columns, [Moebius_S]
    returns a matrix of the shape of [X] whose row i is the image of row i of
    [X] under the formula of the specification, evaluated in binary64. *)
Theorem Moebius_S_rows (X : mat) (mu : vec) (rho : float) :
  is_vec mu (n_cols X) ->
  exists Y, Moebius_S X mu rho = Ok Y /\
    n_rows Y = n_rows X /\ n_cols Y = n_cols X /\ wf Y /\
    forall i, i < n_rows X -> row Y i = moebius_row rho (mem mu) (row X i).
Proof.
  intros Hmu. exists (fill (n_rows X) (n_cols X) (moebius_entry X mu rho)).
  split; [now apply Moebius_S_conforming|]. repeat split.
  - apply wf_fill.
  - intros i Hi. rewrite row_fill by exact Hi.
    pose proof (length_vec mu _ Hmu) as Hlen.
    unfold moebius_row, row at 2. rewrite <- Hlen, zip_with_map_seq.
    apply map_ext. intros j. rewrite Nat.sub_0_r. unfold moebius_entry.
    apply FloatFacts.add_comm.
Qed.

Lemma Moebius_S_rows_witness :
  is_vec mu2 (n_cols X22) /\
  exists Y, Moebius_S X22 mu2 0.5%float = Ok Y /\
    n_rows Y = n_rows X22 /\ n_cols Y = n_cols X22 /\ wf Y /\
    forall i, i < n_rows X22 -> row Y i = moebius_row 0.5%float (mem mu2) (row X22 i).
Proof.
  assert (Hmu : is_vec mu2 (n_cols X22)) by (repeat split).
  split; [exact Hmu|]. exact (Moebius_S_rows X22 mu2 0.5%float Hmu).
Defined.

(** C8: a [mu] whose length differs from the number of columns of [X] makes
    [Moebius_S] throw: Armadillo's [each_row()] rejects the operand. *)
Theorem Moebius_S_dimension_mismatch (X : mat) (mu : vec) (rho : float) (m : nat) :
  is_vec mu m -> m <> n_cols X ->
  Moebius_S X mu rho = Throw (logic_error "each_row(): incompatible size").
Proof.
  intros (_ & Hn & _) Hne. apply Moebius_S_nonconforming. now rewrite Hn.
Qed.

Lemma Moebius_S_dimension_mismatch_witness :
  is_vec mu3 3 /\ 3 <> n_cols X22 /\
  Moebius_S X22 mu3 0.5%float = Throw (logic_error "each_row(): incompatible size").
Proof.
  assert (Hmu : is_vec mu3 3) by (repeat split).
  assert (Hne : 3 <> n_cols X22) by discriminate.
  split; [exact Hmu|]. split; [exact Hne|].
  exact (Moebius_S_dimension_mismatch X22 mu3 0.5%float 3 Hmu Hne).
Defined.

(** C9: at [rho = -1] and with conforming operands, [Moebius_S] returns a
    matrix of the shape of [X]; a row whose denominator is a zero is filled
    with NaN, nothing is thrown. *)
Theorem Moebius_S_rho_minus_one (X : mat) (mu : vec) :
  is_vec mu (n_cols X) ->
  exists Y, Moebius_S X mu (-1)%float = Ok Y /\
    n_rows Y = n_rows X /\ n_cols Y = n_cols X /\ wf Y /\
    forall i, i < n_rows X ->
      let denom := (1 + 2 * -1 * dot (row X i) (mem mu) + -1 * -1)%float in
      denom = 0%float \/ denom = (-0)%float ->
      forall j, j < n_cols X -> at_ Y i j = nan.
Proof.
  intros Hmu. exists (fill (n_rows X) (n_cols X) (moebius_entry X mu (-1)%float)).
  split; [now apply Moebius_S_conforming|]. repeat split.
  - apply wf_fill.
  - intros i Hi denom Hden j Hj. rewrite at_fill by assumption.
    unfold moebius_entry. fold denom.
    change (1 - -1 * -1)%float with 0%float.
    rewrite (FloatFacts.div_zero_nan _ denom (FloatFacts.zero_mul _) Hden).
    apply FloatFacts.nan_add.
Qed.

Lemma Moebius_S_rho_minus_one_witness :
  is_vec mu2 (n_cols X22) /\
  exists Y, Moebius_S X22 mu2 (-1)%float = Ok Y /\
    n_rows Y = n_rows X22 /\ n_cols Y = n_cols X22 /\ wf Y /\
    forall i, i < n_rows X22 ->
      let denom := (1 + 2 * -1 * dot (row X22 i) (mem mu2) + -1 * -1)%float in
      denom = 0%float \/ denom = (-0)%float ->
      forall j, j < n_cols X22 -> at_ Y i j = nan.
Proof.
  assert (Hmu : is_vec mu2 (n_cols X22)) by (repeat split).
  split; [exact Hmu|]. exact (Moebius_S_rho_minus_one X22 mu2 Hmu).
Defined.

(** The first row of [X22] is [mu2] itself: its denominator at [rho = -1] is
    zero and the row comes back as NaN, the second row comes back as [-mu2]. *)
Example Moebius_S_rho_minus_one_X22 :
  Moebius_S X22 mu2 (-1)%float =
  Ok {| n_rows := 2; n_cols := 2; mem := [nan; -1; nan; 0]%float |}.
Proof. reflexivity. Qed.

(** The concrete scenario of the specification: X = [[1,0],[0,1]],
    mu = [1,0], rho = 0.5.  The first row, which is [mu], is a fixed point;
    the second row moves to [0.8, 0.6]. *)
Example Moebius_S_half_X22 :
  Moebius_S X22 mu2 0.5%float =
  Ok {| n_rows := 2; n_cols := 2;
        mem := [1; 0x1.999999999999ap-1; 0; 0x1.3333333333333p-1]%float |}.
Proof. reflexivity. Qed.

(** C5 fails on the code when an inner product is not finite: for the finite
    data X = [[2^600]], mu = [2^600] the inner product overflows to infinity,
    [2 * 0 * infinity] is NaN, so is the denominator, and the matrix comes
    back as [[NaN]]. *)
Lemma Moebius_S_rho_zero_overflow :
  is_vec mu_big (n_cols X_big) /\
  is_finite (at_ X_big 0 0) = true /\ is_finite (nth 0 (mem mu_big) 0%float) = true /\
  dot (row X_big 0) (mem mu_big) = infinity /\
  Moebius_S X_big mu_big 0%float = Ok {| n_rows := 1; n_cols := 1; mem := [nan] |}.
Proof. repeat split. Qed.

(** C5, amended: at [rho = 0], when every row of [X] has a finite inner
    product with [mu] (which forces the entries involved to be finite),
    [Moebius_S] returns a matrix of the shape of [X] whose entries are those
    of [X], exactly; only the sign of a zero entry may change. *)
Theorem Moebius_S_rho_zero (X : mat) (mu : vec) :
  is_vec mu (n_cols X) ->
  (forall i, i < n_rows X -> is_finite (dot (row X i) (mem mu)) = true) ->
  exists Y, Moebius_S X mu 0%float = Ok Y /\
    n_rows Y = n_rows X /\ n_cols Y = n_cols X /\ wf Y /\
    forall i j, i < n_rows X -> j < n_cols X -> same_double (at_ Y i j) (at_ X i j).
Proof.
  intros Hmu Hfin. exists (fill (n_rows X) (n_cols X) (moebius_entry X mu 0%float)).
  split; [now apply Moebius_S_conforming|]. repeat split.
  - apply wf_fill.
  - intros i j Hi Hj. rewrite at_fill by assumption. unfold moebius_entry.
    pose proof (length_vec mu _ Hmu) as Hlen.
    destruct (FloatFacts.dot_finite_inv (row X i) (mem mu) j) as [Hx Hm].
    + now rewrite length_row.
    + now apply Hfin.
    + now rewrite length_row.
    + rewrite nth_row in Hx by exact Hj.
      apply FloatFacts.entry_rho_zero; auto.
Qed.

Lemma Moebius_S_rho_zero_witness :
  is_vec mu2 (n_cols X22) /\
  (forall i, i < n_rows X22 -> is_finite (dot (row X22 i) (mem mu2)) = true) /\
  exists Y, Moebius_S X22 mu2 0%float = Ok Y /\
    n_rows Y = n_rows X22 /\ n_cols Y = n_cols X22 /\ wf Y /\
    forall i j, i < n_rows X22 -> j < n_cols X22 -> same_double (at_ Y i j) (at_ X22 i j).
Proof.
  assert (Hmu : is_vec mu2 (n_cols X22)) by (repeat split).
  assert (Hfin : forall i, i < n_rows X22 -> is_finite (dot (row X22 i) (mem mu2)) = true).
  { intros [|[|i]] Hi; [reflexivity | reflexivity | simpl in Hi; lia]. }
  split; [exact Hmu|]. split; [exact Hfin|].
  exact (Moebius_S_rho_zero X22 mu2 Hmu Hfin).
Defined.

(** ** More on the converters *)

(** X3: for a matrix with a single row or a single column, the array
    returned by [arma_mat_to_pyarray] holds M(i, j) at position (i, j). *)
Theorem arma_mat_to_pyarray_thin (M : mat) (h : heap) :
  wf M -> n_rows M = 1 \/ n_cols M = 1 ->
  let '(r, h') := arma_mat_to_pyarray M h in
  (data r ∉ dom h) /\ shape r = [n_rows M; n_cols M] /\
  forall i j, i < n_rows M -> j < n_cols M -> item2 h' r i j = at_ M i j.
Proof.
  intros HM Hthin. pose proof (arma_mat_to_pyarray_spec M h HM) as Hspec.
  destruct (arma_mat_to_pyarray M h) as [r h'].
  destruct Hspec as (Hfresh & Hr & ->).
  split; [exact Hfresh|]. split; [exact Hr|].
  intros i j Hi Hj. unfold item2, at_. rewrite deref_insert, Hr; simpl.
  f_equal. destruct Hthin as [H1 | H1]; rewrite H1 in *; lia.
Qed.

Lemma arma_mat_to_pyarray_thin_witness :
  wf mu3 /\ (n_rows mu3 = 1 \/ n_cols mu3 = 1) /\
  let '(r, h') := arma_mat_to_pyarray mu3 ∅ in
  (data r ∉ dom (∅ : heap)) /\ shape r = [n_rows mu3; n_cols mu3] /\
  forall i j, i < n_rows mu3 -> j < n_cols mu3 -> item2 h' r i j = at_ mu3 i j.
Proof.
  split; [reflexivity|]. split; [right; reflexivity|].
  exact (arma_mat_to_pyarray_thin mu3 ∅ eq_refl (or_intror eq_refl)).
Defined.

(** X5: the two converters towards Python add one buffer and touch no
    other: every array that was valid stays valid, with the same contents,
    and does not share its buffer with the result. *)
Theorem to_pyarray_frame (M : mat) (h : heap) (a : array_t) :
  wf M -> valid h a ->
  (let '(r, h') := arma_mat_to_pyarray M h in
   dom h' = {[ data r ]} ∪ dom h /\
   valid h' a /\ deref h' (data a) = deref h (data a) /\ data a <> data r) /\
  (let '(r, h') := arma_vec_to_pyarray M h in
   dom h' = {[ data r ]} ∪ dom h /\
   valid h' a /\ deref h' (data a) = deref h (data a) /\ data a <> data r).
Proof.
  intros HM Ha. pose proof (valid_in_dom h a Ha) as Hdom.
  assert (Hframe : forall p buf, p ∉ dom h ->
            dom (<[p := buf]> h) = {[ p ]} ∪ dom h /\
            valid (<[p := buf]> h) a /\
            deref (<[p := buf]> h) (data a) = deref h (data a) /\ data a <> p).
  { intros p buf Hp.
    assert (Hne : data a <> p) by (intros E; apply Hp; rewrite <- E; exact Hdom).
    assert (Hsame : <[p := buf]> h !! data a = h !! data a)
      by now apply insert_fresh_lookup.
    split; [apply dom_insert_L|]. split; [|split; [|exact Hne]].
    - destruct Ha as (b & Hb & Hlen). exists b. now rewrite Hsame.
    - unfold deref. now rewrite Hsame. }
  split.
  - pose proof (arma_mat_to_pyarray_spec M h HM) as Hspec.
    destruct (arma_mat_to_pyarray M h) as [r h'].
    destruct Hspec as (Hfresh & _ & ->). now apply Hframe.
  - pose proof (arma_vec_to_pyarray_spec M h HM) as Hspec.
    destruct (arma_vec_to_pyarray M h) as [r h'].
    destruct Hspec as (Hfresh & _ & ->). now apply Hframe.
Qed.

Lemma to_pyarray_frame_witness :
  wf M23 /\ valid h23 A23 /\
  (let '(r, h') := arma_mat_to_pyarray M23 h23 in
   dom h' = {[ data r ]} ∪ dom h23 /\
   valid h' A23 /\ deref h' (data A23) = deref h23 (data A23) /\ data A23 <> data r) /\
  (let '(r, h') := arma_vec_to_pyarray M23 h23 in
   dom h' = {[ data r ]} ∪ dom h23 /\
   valid h' A23 /\ deref h' (data A23) = deref h23 (data A23) /\ data A23 <> data r).
Proof.
  assert (Hvalid : valid h23 A23).
  { exists [1; 2; 3; 4; 5; 6]%float. split; reflexivity. }
  split; [reflexivity|]. split; [exact Hvalid|].
  exact (to_pyarray_frame M23 h23 A23 eq_refl Hvalid).
Defined.

(** X6: a column vector sent to Python by [arma_vec_to_pyarray] and read
    back by [pyarray_to_arma_vec] is the same vector. *)
Theorem vec_roundtrip_from_arma (v : vec) (h : heap) (n : nat) :
  is_vec v n ->
  let '(r, h') := arma_vec_to_pyarray v h in
  pyarray_to_arma_vec h' r = Ok v.
Proof.
  intros Hv. pose proof (length_vec v n Hv) as Hlen. destruct Hv as (Hwf & Hn & Hc).
  pose proof (arma_vec_to_pyarray_spec v h Hwf) as Hspec.
  destruct (arma_vec_to_pyarray v h) as [r h'].
  destruct Hspec as (_ & Hr & ->).
  unfold pyarray_to_arma_vec, request, shape_at; simpl. rewrite Hr; simpl.
  rewrite deref_insert. f_equal.
  unfold vec_aux, mat_aux, n_elem. rewrite Hn, Hc, Nat.mul_1_r.
  rewrite firstn_all2 by lia. destruct v as [r0 c0 m0]; simpl in *. now subst.
Qed.

Lemma vec_roundtrip_from_arma_witness :
  is_vec mu3 3 /\
  let '(r, h') := arma_vec_to_pyarray mu3 h23 in
  pyarray_to_arma_vec h' r = Ok mu3.
Proof.
  assert (Hmu : is_vec mu3 3) by (repeat split).
  split; [exact Hmu|]. exact (vec_roundtrip_from_arma mu3 h23 3 Hmu).
Defined.

(** X7: a matrix sent to Python by [arma_mat_to_pyarray] and read back by
    [pyarray_to_arma_mat] keeps its size, but position (i, j) of the result
    holds the element of [M] at column-major offset [i * n_cols + j]. *)
Theorem mat_roundtrip_from_arma (M : mat) (h : heap) :
  wf M ->
  let '(r, h') := arma_mat_to_pyarray M h in
  let R := pyarray_to_arma_mat h' r in
  n_rows R = n_rows M /\ n_cols R = n_cols M /\ wf R /\
  forall i j, i < n_rows M -> j < n_cols M ->
    at_ R i j =
    at_ M ((i * n_cols M + j) mod n_rows M) ((i * n_cols M + j) / n_rows M).
Proof.
  intros HM. pose proof (arma_mat_to_pyarray_spec M h HM) as Hspec.
  destruct (arma_mat_to_pyarray M h) as [r h'].
  destruct Hspec as (_ & Hr & ->).
  unfold pyarray_to_arma_mat, request, shape_at; simpl. rewrite Hr; simpl.
  split; [reflexivity|]. split; [reflexivity|]. split; [apply wf_fill|].
  intros i j Hi Hj. rewrite at_t by (simpl; lia). rewrite at_mat_aux by lia.
  rewrite deref_insert. unfold at_. f_equal.
  pose proof (Nat.div_mod_eq (i * n_cols M + j) (n_rows M)). lia.
Qed.

Lemma mat_roundtrip_from_arma_witness :
  wf M23 /\
  let '(r, h') := arma_mat_to_pyarray M23 ∅ in
  let R := pyarray_to_arma_mat h' r in
  n_rows R = n_rows M23 /\ n_cols R = n_cols M23 /\ wf R /\
  forall i j, i < n_rows M23 -> j < n_cols M23 ->
    at_ R i j =
    at_ M23 ((i * n_cols M23 + j) mod n_rows M23) ((i * n_cols M23 + j) / n_rows M23).
Proof.
  split; [reflexivity|]. exact (mat_roundtrip_from_arma M23 ∅ eq_refl).
Defined.

(** ** NaN and zero in binary64 *)

Module NaNFacts.

Local Open Scope float_scope.

Lemma nan_mul_l (a : float) : nan * a = nan.
Proof.
  pose proof (mul_spec nan a) as H. change (Prim2SF nan) with S754_nan in H.
  exact (FloatFacts.of_SF _ _ H).
Qed.

Lemma nan_mul_r (a : float) : a * nan = nan.
Proof.
  pose proof (mul_spec a nan) as H. change (Prim2SF nan) with S754_nan in H.
  destruct (Prim2SF a); exact (FloatFacts.of_SF _ _ H).
Qed.

Lemma nan_add_r (a : float) : a + nan = nan.
Proof. rewrite FloatFacts.add_comm. apply FloatFacts.nan_add. Qed.

Lemma nan_div_r (a : float) : a / nan = nan.
Proof.
  pose proof (div_spec a nan) as H. change (Prim2SF nan) with S754_nan in H.
  destruct (Prim2SF a); exact (FloatFacts.of_SF _ _ H).
Qed.

(** Once the accumulator of an inner product is NaN it stays NaN. *)
Lemma fold_nan_acc (l : list (float * float)) :
  fold_left (fun acc p => acc + fst p * snd p) l nan = nan.
Proof.
  induction l as [|p l IH]; [reflexivity|]. simpl. now rewrite FloatFacts.nan_add.
Qed.

Lemma fold_nan (l : list (float * float)) (acc : float) (p : float * float) :
  In p l -> fst p = nan \/ snd p = nan ->
  fold_left (fun acc p => acc + fst p * snd p) l acc = nan.
Proof.
  intros Hin Hp. revert acc. induction l as [|q l IH]; intros acc; [contradiction|].
  simpl. destruct Hin as [-> | Hin]; [|now apply IH].
  assert (Hprod : fst p * snd p = nan).
  { destruct Hp as [-> | ->]; [apply nan_mul_l | apply nan_mul_r]. }
  rewrite Hprod, nan_add_r. apply fold_nan_acc.
Qed.

(** An inner product with a NaN factor is NaN. *)
Lemma dot_nan (x y : list float) (j : nat) :
  length x = length y -> (j < length x)%nat ->
  nth j x 0 = nan \/ nth j y 0 = nan -> dot x y = nan.
Proof.
  intros Hlen Hj Hnan. unfold dot.
  apply (fold_nan _ _ (nth j x 0, nth j y 0)); [|exact Hnan].
  rewrite <- combine_nth by exact Hlen. apply nth_In.
  rewrite length_combine. lia.
Qed.

(** The denominator is NaN when [rho] or the inner product is. *)
Lemma denominator_nan (rho d : float) :
  rho = nan \/ d = nan -> 1 + 2 * rho * d + rho * rho = nan.
Proof.
  intros [-> | ->].
  - change (2 * nan) with nan. rewrite nan_mul_l.
    change (1 + nan) with nan. apply FloatFacts.nan_add.
  - rewrite nan_mul_r. change (1 + nan) with nan. apply FloatFacts.nan_add.
Qed.

(** A value that is neither NaN nor a zero is a nonzero finite number or an
    infinity. *)
Lemma regular_SF (x : float) :
  is_nan x = false -> is_zero x = false ->
  (exists s m e, Prim2SF x = S754_finite s m e) \/ (exists s, Prim2SF x = S754_infinity s).
Proof.
  unfold is_nan, is_zero. rewrite !FloatAxioms.eqb_spec.
  change (Prim2SF zero) with (S754_zero false).
  destruct (Prim2SF x) as [s|s| |s m e]; intros Hnan Hzero; eauto.
  - destruct s; discriminate.
  - discriminate.
Qed.

(** A zero divided by a regular value is a zero. *)
Lemma zero_div_regular (z d : float) :
  z = 0 \/ z = -0 -> is_nan d = false -> is_zero d = false ->
  z / d = 0 \/ z / d = -0.
Proof.
  intros Hz Hnan Hzero. pose proof (div_spec z d) as H.
  assert (Hz' : exists s, Prim2SF z = S754_zero s)
    by (destruct Hz as [-> | ->]; eexists; reflexivity).
  destruct Hz' as [sz Hsz]. rewrite Hsz in H.
  destruct (regular_SF d Hnan Hzero) as [(s & m & e & Hd) | (s & Hd)];
    rewrite Hd in H; apply FloatFacts.of_SF in H; destruct sz, s; auto.
Qed.

(** Adding a zero changes at most the sign of a zero. *)
Lemma zero_add_same (z b : float) : z = 0 \/ z = -0 -> same_double (z + b) b.
Proof.
  intros Hz. pose proof (add_spec z b) as H.
  assert (Hz' : exists s, Prim2SF z = S754_zero s)
    by (destruct Hz as [-> | ->]; eexists; reflexivity).
  destruct Hz' as [sz Hsz]. rewrite Hsz in H.
  destruct (Prim2SF b) as [s|s| |s m e] eqn:Hb.
  - right. split; [|now apply (FloatFacts.is_zero_SF b s)].
    destruct sz, s; simpl in H; eapply FloatFacts.is_zero_SF; exact H.
  - left. apply Prim2SF_inj. now rewrite H, Hb.
  - left. apply Prim2SF_inj. now rewrite H, Hb.
  - left. apply Prim2SF_inj. now rewrite H, Hb.
Qed.

End NaNFacts.

(** ** More on the Moebius map *)

(** A valid array of rank 1 or 2 with [d] elements converts to the vector
    of its [d] doubles in buffer order. *)
Lemma pyarray_to_arma_vec_flat (h : heap) (m : array_t) (d : nat) :
  valid h m ->
  shape m = [d] \/ (exists a b, shape m = [a; b] /\ a * b = d) ->
  pyarray_to_arma_vec h m = Ok (vec_aux (deref h (data m)) d) /\
  length (deref h (data m)) = d.
Proof.
  intros Hm Hshape. pose proof (deref_valid h m Hm) as Hlen.
  unfold pyarray_to_arma_vec, request, shape_at; simpl.
  destruct Hshape as [Hs | (a & b & Hs & Hab)]; rewrite Hs in *; simpl in *.
  - split; [reflexivity | lia].
  - split; [now rewrite Hab | lia].
Qed.

(** X8: a call from Python.  For a row-major array [A] of shape (n, d) and a
    direction [m] with d elements, passed as a 1-D array or as a 2-D row or
    column, converting both and applying [Moebius_S] gives an n x d matrix
    whose row i is the image of row i of [A], as Python reads it, under the
    formula. *)
Theorem Moebius_S_from_python (h : heap) (A m : array_t) (rho : float) (n d : nat) :
  shape A = [n; d] -> valid h m ->
  shape m = [d] \/ (exists a b, shape m = [a; b] /\ a * b = d) ->
  exists mu Y,
    pyarray_to_arma_vec h m = Ok mu /\
    Moebius_S (pyarray_to_arma_mat h A) mu rho = Ok Y /\
    n_rows Y = n /\ n_cols Y = d /\
    forall i, i < n ->
      row Y i = moebius_row rho (deref h (data m)) (array_row h A i).
Proof.
  intros HA Hm Hshape.
  destruct (pyarray_to_arma_vec_flat h m d Hm Hshape) as [Hvec Hlen].
  destruct (vec_aux_all _ _ Hlen) as (Hmem & Hwf & _).
  set (mu := vec_aux (deref h (data m)) d) in *.
  set (X := pyarray_to_arma_mat h A).
  assert (HX : n_rows X = n /\ n_cols X = d).
  { unfold X, pyarray_to_arma_mat, request, shape_at; simpl. now rewrite HA. }
  destruct HX as [Hn Hd].
  assert (Hmu : is_vec mu (n_cols X)) by (rewrite Hd; repeat split; assumption).
  assert (Hat : forall i j, i < n -> j < d -> at_ X i j = item2 h A i j).
  { intros i j Hi Hj. unfold X, pyarray_to_arma_mat, request, shape_at, item2; simpl.
    rewrite HA; simpl. rewrite at_t by (simpl; lia). rewrite at_mat_aux by lia.
    f_equal. lia. }
  exists mu, (fill (n_rows X) (n_cols X) (moebius_entry X mu rho)).
  split; [exact Hvec|].
  split; [now apply Moebius_S_conforming|split; [exact Hn|split; [exact Hd|]]].
  intros i Hi. rewrite row_fill by lia.
  assert (Hrow : row X i = array_row h A i).
  { unfold row, array_row. rewrite Hd, HA; simpl. apply map_ext_in.
    intros j Hj. apply in_seq in Hj. apply Hat; lia. }
  unfold moebius_row. rewrite <- Hrow. unfold row at 2.
  rewrite Hd, <- Hlen, zip_with_map_seq. apply map_ext. intros j.
  rewrite Nat.sub_0_r. unfold moebius_entry. rewrite Hmem.
  apply FloatFacts.add_comm.
Qed.

Lemma Moebius_S_from_python_witness :
  shape A_call = [2; 2] /\ valid h_call m_call /\
  (shape m_call = [2] \/ (exists a b, shape m_call = [a; b] /\ a * b = 2)) /\
  exists mu Y,
    pyarray_to_arma_vec h_call m_call = Ok mu /\
    Moebius_S (pyarray_to_arma_mat h_call A_call) mu 0.5%float = Ok Y /\
    n_rows Y = 2 /\ n_cols Y = 2 /\
    forall i, i < 2 ->
      row Y i = moebius_row 0.5%float (deref h_call (data m_call)) (array_row h_call A_call i).
Proof.
  assert (Hvalid : valid h_call m_call).
  { exists [1; 0]%float. split; reflexivity. }
  assert (Hshape : shape m_call = [2] \/ (exists a b, shape m_call = [a; b] /\ a * b = 2))
    by (left; reflexivity).
  split; [reflexivity|]. split; [exact Hvalid|]. split; [exact Hshape|].
  exact (Moebius_S_from_python h_call A_call m_call 0.5%float 2 2 eq_refl Hvalid Hshape).
Defined.

(** X9: a NaN anywhere in row i of [X] makes the whole of row i of the
    result NaN, through the row's inner product with [mu]. *)
Theorem Moebius_S_nan_row (X : mat) (mu : vec) (rho : float) :
  is_vec mu (n_cols X) ->
  exists Y, Moebius_S X mu rho = Ok Y /\
    forall i j, i < n_rows X -> j < n_cols X -> at_ X i j = nan ->
      forall j', j' < n_cols X -> at_ Y i j' = nan.
Proof.
  intros Hmu. exists (fill (n_rows X) (n_cols X) (moebius_entry X mu rho)).
  split; [now apply Moebius_S_conforming|].
  intros i j Hi Hj Hnan j' Hj'. rewrite at_fill by assumption.
  pose proof (length_vec mu _ Hmu) as Hlen.
  assert (Hdot : dot (row X i) (mem mu) = nan).
  { apply (NaNFacts.dot_nan _ _ j).
    - now rewrite length_row.
    - now rewrite length_row.
    - left. now rewrite nth_row. }
  unfold moebius_entry.
  rewrite (NaNFacts.denominator_nan rho _ (or_intror Hdot)).
  rewrite NaNFacts.nan_div_r. apply FloatFacts.nan_add.
Qed.

Lemma Moebius_S_nan_row_witness :
  is_vec mu2 (n_cols X_nan) /\
  exists Y, Moebius_S X_nan mu2 0.5%float = Ok Y /\
    forall i j, i < n_rows X_nan -> j < n_cols X_nan -> at_ X_nan i j = nan ->
      forall j', j' < n_cols X_nan -> at_ Y i j' = nan.
Proof.
  assert (Hmu : is_vec mu2 (n_cols X_nan)) by (repeat split).
  split; [exact Hmu|]. exact (Moebius_S_nan_row X_nan mu2 0.5%float Hmu).
Defined.

(** X10: a NaN [rho], or a NaN anywhere in [mu], makes every entry of the
    result NaN; no exception is thrown. *)
Theorem Moebius_S_nan_parameter (X : mat) (mu : vec) (rho : float) :
  is_vec mu (n_cols X) ->
  rho = nan \/ (exists j, j < n_cols X /\ nth j (mem mu) 0%float = nan) ->
  exists Y, Moebius_S X mu rho = Ok Y /\
    forall i j, i < n_rows X -> j < n_cols X -> at_ Y i j = nan.
Proof.
  intros Hmu Hnan. exists (fill (n_rows X) (n_cols X) (moebius_entry X mu rho)).
  split; [now apply Moebius_S_conforming|].
  intros i j Hi Hj. rewrite at_fill by assumption.
  pose proof (length_vec mu _ Hmu) as Hlen.
  assert (Hden : (1 + 2 * rho * dot (row X i) (mem mu) + rho * rho)%float = nan).
  { apply NaNFacts.denominator_nan. destruct Hnan as [Hrho | (k & Hk & Hmuk)].
    - now left.
    - right. apply (NaNFacts.dot_nan _ _ k).
      + now rewrite length_row.
      + now rewrite length_row.
      + now right. }
  unfold moebius_entry. rewrite Hden, NaNFacts.nan_div_r. apply FloatFacts.nan_add.
Qed.

Lemma Moebius_S_nan_parameter_witness :
  is_vec mu_nan (n_cols X22) /\
  (0.5%float = nan \/ (exists j, j < n_cols X22 /\ nth j (mem mu_nan) 0%float = nan)) /\
  exists Y, Moebius_S X22 mu_nan 0.5%float = Ok Y /\
    forall i j, i < n_rows X22 -> j < n_cols X22 -> at_ Y i j = nan.
Proof.
  assert (Hmu : is_vec mu_nan (n_cols X22)) by (repeat split).
  assert (Hnan : 0.5%float = nan \/
                 (exists j, j < n_cols X22 /\ nth j (mem mu_nan) 0%float = nan)).
  { right. exists 1. split; [simpl; lia | reflexivity]. }
  split; [exact Hmu|]. split; [exact Hnan|].
  exact (Moebius_S_nan_parameter X22 mu_nan 0.5%float Hmu Hnan).
Defined.

(** X11: when the factor [1 - rho*rho] is zero (rho = 1 or rho = -1) the map
    collapses: an entry whose shifted value [x + rho*mu] is finite, in a row
    whose denominator is neither NaN nor zero, comes back as [rho * mu(j)]
    (up to the sign of a zero), whatever [x] was. *)
Theorem Moebius_S_collapse (X : mat) (mu : vec) (rho : float) :
  is_vec mu (n_cols X) -> (1 - rho * rho)%float = 0%float ->
  exists Y, Moebius_S X mu rho = Ok Y /\
    forall i j, i < n_rows X -> j < n_cols X ->
      let denom := (1 + 2 * rho * dot (row X i) (mem mu) + rho * rho)%float in
      is_finite (at_ X i j + rho * nth j (mem mu) 0)%float = true ->
      is_nan denom = false -> is_zero denom = false ->
      same_double (at_ Y i j) (rho * nth j (mem mu) 0)%float.
Proof.
  intros Hmu Hk. exists (fill (n_rows X) (n_cols X) (moebius_entry X mu rho)).
  split; [now apply Moebius_S_conforming|].
  intros i j Hi Hj denom Hfin Hnan Hzero. rewrite at_fill by assumption.
  unfold moebius_entry. fold denom. rewrite Hk.
  apply NaNFacts.zero_add_same.
  apply NaNFacts.zero_div_regular; [|exact Hnan|exact Hzero].
  now apply FloatFacts.zero_mul_finite.
Qed.

Lemma Moebius_S_collapse_witness :
  is_vec mu2 (n_cols X22) /\ (1 - -1 * -1)%float = 0%float /\
  exists Y, Moebius_S X22 mu2 (-1)%float = Ok Y /\
    forall i j, i < n_rows X22 -> j < n_cols X22 ->
      let denom := (1 + 2 * -1 * dot (row X22 i) (mem mu2) + -1 * -1)%float in
      is_finite (at_ X22 i j + -1 * nth j (mem mu2) 0)%float = true ->
      is_nan denom = false -> is_zero denom = false ->
      same_double (at_ Y i j) (-1 * nth j (mem mu2) 0)%float.
Proof.
  assert (Hmu : is_vec mu2 (n_cols X22)) by (repeat split).
  split; [exact Hmu|]. split; [reflexivity|].
  exact (Moebius_S_collapse X22 mu2 (-1)%float Hmu eq_refl).
Defined.
